(** * Mirai matchmaking: a shallow embedding of the rendezvous server
    (mirai-matchmaking-server/src/main.rs) and of the matchmaking client's
    handler loop and command surface (mirai-matchmaking-client/src/lib.rs).

    Modelling conventions.
    - A [SocketAddr] is a natural number (only equality and hashing matter).
    - A [HashSet<SocketAddr>] is a [gset], a [HashMap<SocketAddr, Peer>] a
      [gmap]; iterating a hash set is iterating [elements], one fixed
      iteration order among those the Rust hash set may use.
    - [u128] and [u32] values are [N]; Rust integer overflow (which panics in
      the default debug profile) is written out as a checked operation whose
      failure is [None], the handler thread having panicked.
    - An [Instant] is a number of nanoseconds; [Instant::elapsed] saturates
      at zero, as [N.sub] does.
    - A packet payload is the message it encodes ([bincode] serialisation of
      these enums never fails); decoding a payload as the wrong message set
      fails, as an undeserialisable payload does.
    - Sends to the transport's unbounded channel are appended to [sent] in
      order; mutex poisoning and a closed channel are not modelled. *)

From stdpp Require Import base gmap sets list.

Abbreviation SocketAddr := nat (only parsing).

(** ** Wire protocol (mirai-core and the client crate) *)

Inductive ClientToClient :=
| Ping (t : N)
| PingResponse (t : N)
| Challenge
| Accept
| Decline
| Start (t : N).

Inductive ClientToServer :=
| StatusCheck
| Queue
| Dequeue
| Heartbeat.

Inductive ServerToClient :=
| Alive
| Peers (s : gset SocketAddr)
| Queued (a : SocketAddr)
| Dequeued (a : SocketAddr).

(** The bytes of a packet, as the message they encode. *)
Inductive Payload :=
| EncC2C (m : ClientToClient)
| EncC2S (m : ClientToServer)
| EncS2C (m : ServerToClient).

Definition deserialize_c2c (p : Payload) : option ClientToClient :=
  match p with EncC2C m => Some m | _ => None end.
Definition deserialize_c2s (p : Payload) : option ClientToServer :=
  match p with EncC2S m => Some m | _ => None end.
Definition deserialize_s2c (p : Payload) : option ServerToClient :=
  match p with EncS2C m => Some m | _ => None end.

Inductive Delivery := Reliable_unordered | Unreliable.

(** laminar's [Packet]: destination (or source) address, payload, class. *)
Record Packet := mkPacket {
  pk_addr : SocketAddr;
  pk_payload : Payload;
  pk_delivery : Delivery;
}.

Definition reliable_unordered (a : SocketAddr) (p : Payload) : Packet :=
  mkPacket a p Reliable_unordered.
Definition unreliable (a : SocketAddr) (p : Payload) : Packet :=
  mkPacket a p Unreliable.

Inductive SocketEvent :=
| EvPacket (p : Packet)
| EvConnect (a : SocketAddr)
| EvTimeout (a : SocketAddr).

(** ** Machine integers *)

Definition U32_MAX : N := 2 ^ 32 - 1.
Definition U128_MAX : N := 2 ^ 128 - 1.

Definition checked_add_u32 (a b : N) : option N :=
  if (a + b <=? U32_MAX)%N then Some (a + b)%N else None.
Definition checked_add_u128 (a b : N) : option N :=
  if (a + b <=? U128_MAX)%N then Some (a + b)%N else None.
Definition checked_sub_u128 (a b : N) : option N :=
  if (b <=? a)%N then Some (a - b)%N else None.

(** ** The client (mirai-matchmaking-client/src/lib.rs) *)

Inductive PeerStatus := PSNone | OutgoingChallenge | IncomingChallenge | Confirmed.

Record Peer := mkPeer {
  addr : SocketAddr;
  latency : option N;
  ping_count : N;
  pstatus : PeerStatus;
}.

(** [Peer::new] *)
Definition Peer_new (a : SocketAddr) : Peer := mkPeer a None 0 PSNone.

(** [Peer::add_ping]: [self.ping_count += 1] (a [u32]) happens first, then
    the latency update on [u128] values. *)
Definition add_ping (p : Peer) (ping_latency : N) : option Peer :=
  match checked_add_u32 (ping_count p) 1 with
  | None => None
  | Some c =>
      match latency p with
      | Some l =>
          match checked_add_u128 (l / 2) (ping_latency / 2) with
          | Some l' => Some (mkPeer (addr p) (Some l') c (pstatus p))
          | None => None
          end
      | None => Some (mkPeer (addr p) (Some ping_latency) c (pstatus p))
      end
  end.

Inductive ServerConnection :=
| Connected
| Disconnected
| Connecting (deadline : N).

Inductive Status :=
| Idle
| QueuePending
| SQueued
| MatchPending (a : SocketAddr)
| MatchConfirmed (a : SocketAddr).

(** The state shared between the handler thread and the [Client] handle
    (each field behind its own [Arc<Mutex<_>>]), plus the packets handed
    to the transport so far. *)
Record ClientState := mkClient {
  status : Status;
  server_connection : ServerConnection;
  peers : gmap SocketAddr Peer;
  incoming_challenges : gset SocketAddr;
  outgoing_challenges : gset SocketAddr;
  sent : list Packet;
}.

Definition set_status (s : Status) (st : ClientState) : ClientState :=
  mkClient s (server_connection st) (peers st) (incoming_challenges st)
    (outgoing_challenges st) (sent st).
Definition set_server_connection (c : ServerConnection) (st : ClientState) : ClientState :=
  mkClient (status st) c (peers st) (incoming_challenges st)
    (outgoing_challenges st) (sent st).
Definition set_peers (m : gmap SocketAddr Peer) (st : ClientState) : ClientState :=
  mkClient (status st) (server_connection st) m (incoming_challenges st)
    (outgoing_challenges st) (sent st).
Definition set_incoming (s : gset SocketAddr) (st : ClientState) : ClientState :=
  mkClient (status st) (server_connection st) (peers st) s
    (outgoing_challenges st) (sent st).
Definition set_outgoing (s : gset SocketAddr) (st : ClientState) : ClientState :=
  mkClient (status st) (server_connection st) (peers st)
    (incoming_challenges st) s (sent st).
Definition send (p : Packet) (st : ClientState) : ClientState :=
  mkClient (status st) (server_connection st) (peers st)
    (incoming_challenges st) (outgoing_challenges st) (sent st ++ [p]).

(** Fixed data of one handler thread: the server address and [start_time]. *)
Record HandlerEnv := mkEnv {
  server_addr : SocketAddr;
  start_time : N;
}.

(** A packet from a peer ([packet.addr() != server_addr]); [now] is the
    current [Instant]. *)
Definition handle_client_msg (env : HandlerEnv) (now : N) (src : SocketAddr)
    (m : ClientToClient) (st : ClientState) : option ClientState :=
  match m with
  | Challenge => Some (set_incoming ({[src]} ∪ incoming_challenges st) st)
  | Accept =>
      match status st with
      | SQueued =>
          if decide (src ∈ outgoing_challenges st) then
            Some (set_status (MatchPending src)
                    (send (reliable_unordered src (EncC2C (Start 0))) st))
          else Some st
      | _ => Some st
      end
  | Decline =>
      let st := set_outgoing (outgoing_challenges st ∖ {[src]}) st in
      match status st with
      | MatchPending a => if decide (a = src) then Some (set_status SQueued st) else Some st
      | _ => Some st
      end
  | Start _ =>
      match status st with
      | SQueued =>
          let st := send (reliable_unordered src (EncC2C (Start 0))) st in
          let st := set_incoming ∅ st in
          let st := set_outgoing ∅ st in
          Some (set_status (MatchConfirmed src) st)
      | MatchPending a =>
          if decide (a = src) then Some (set_status (MatchConfirmed src) st) else Some st
      | _ => Some st
      end
  | Ping remote_time =>
      Some (send (unreliable src (EncC2C (PingResponse remote_time))) st)
  | PingResponse past_local_time =>
      match peers st !! src with
      | Some peer =>
          let local_time := (now - start_time env)%N in
          match checked_sub_u128 local_time past_local_time with
          | None => None
          | Some d =>
              match add_ping peer (d / 2) with
              | None => None
              | Some peer' => Some (set_peers (<[src := peer']> (peers st)) st)
              end
          end
      | None => Some st
      end
  end.

(** [for peer in new_peers { peers.insert(peer, Peer::new(peer)); }] *)
Definition insert_new_peers (new_peers : gset SocketAddr)
    (m : gmap SocketAddr Peer) : gmap SocketAddr Peer :=
  foldl (fun acc a => <[a := Peer_new a]> acc) m (elements new_peers).

(** A packet from the server address. *)
Definition handle_server_msg (m : ServerToClient) (st : ClientState) : ClientState :=
  match m with
  | Peers new_peers =>
      let st := set_peers (insert_new_peers new_peers (peers st)) st in
      match status st with
      | QueuePending => set_status SQueued st
      | _ => st
      end
  | Queued a => set_peers (<[a := Peer_new a]> (peers st)) st
  | Dequeued a => set_peers (delete a (peers st)) st
  | Alive => st
  end.

(** The [match event_receiver.try_recv()] part of one loop iteration. *)
Definition handle_event (env : HandlerEnv) (now : N) (ev : SocketEvent)
    (st : ClientState) : option ClientState :=
  match ev with
  | EvPacket p =>
      if decide (pk_addr p = server_addr env) then
        match deserialize_s2c (pk_payload p) with
        | Some m => Some (handle_server_msg m st)
        | None => Some st
        end
      else
        match deserialize_c2c (pk_payload p) with
        | Some m => handle_client_msg env now (pk_addr p) m st
        | None => Some st
        end
  | EvConnect a =>
      if decide (a = server_addr env) then Some (set_server_connection Connected st)
      else Some st
  | EvTimeout a =>
      if decide (a = server_addr env) then Some (set_server_connection Disconnected st)
      else Some st
  end.

(** [const PING_TIMER_MILLIS: u64 = 100], as a [Duration] in nanoseconds. *)
Definition PING_TIMER_NANOS : N := 100 * 1000000.

(** Outcome of one iteration of the handler's [loop]. *)
Inductive LoopStep :=
| LQuit (st : ClientState)
| LNext (ping_timer : N) (st : ClientState).

Inductive Message := Quit.

(** [for peer in peers.lock()?.values() { ... Ping(start_time.elapsed()) ... }] *)
Definition send_pings (env : HandlerEnv) (now : N) (st : ClientState) : ClientState :=
  foldl (fun acc (p : Peer) =>
           send (unreliable (addr p) (EncC2C (Ping (now - start_time env)%N))) acc)
        st (map snd (map_to_list (peers st))).

(** The deadline check closing each iteration. *)
Definition check_connecting (now : N) (st : ClientState) : ClientState :=
  match server_connection st with
  | Connecting time_limit =>
      if (time_limit <? now)%N then set_server_connection Disconnected st else st
  | _ => st
  end.

(** One iteration of [Client::handler]'s loop at instant [now]: at most one
    transport event, at most one local message, the ping timer, the
    [Connecting] deadline.  [None] is a panic of the handler thread. *)
Definition handler_iteration (env : HandlerEnv) (now : N) (ev : option SocketEvent)
    (msg : option Message) (ping_timer : N) (st : ClientState) : option LoopStep :=
  let st0 := match ev with
             | Some e => handle_event env now e st
             | None => Some st
             end in
  match st0 with
  | None => None
  | Some st =>
      match msg with
      | Some Quit => Some (LQuit st)
      | None =>
          let '(ping_timer, st) :=
            if (PING_TIMER_NANOS <? now - ping_timer)%N
            then (now, send_pings env now st) else (ping_timer, st) in
          Some (LNext ping_timer (check_connecting now st))
      end
  end.

(** [Client::queue] *)
Definition client_queue (server : SocketAddr) (st : ClientState) : ClientState :=
  match status st with
  | Idle =>
      let st := send (reliable_unordered server (EncC2S Queue)) st in
      (* [if let ServerConnection::Disconnected = *server_connection { debug!("asd"); }] *)
      set_status QueuePending st
  | _ => st
  end.

(** [Client::dequeue] *)
Definition client_dequeue (server : SocketAddr) (st : ClientState) : ClientState :=
  match status st with
  | QueuePending | SQueued =>
      let st := send (reliable_unordered server (EncC2S Dequeue)) st in
      set_server_connection Disconnected (set_status Idle st)
  | _ => st
  end.

(** [Client::challenge] (the caller's copy of the [Peer] is not modelled). *)
Definition client_challenge (p : SocketAddr) (st : ClientState) : ClientState :=
  let st := send (reliable_unordered p (EncC2C Challenge)) st in
  set_outgoing ({[p]} ∪ outgoing_challenges st) st.

(** [Client::accept] *)
Definition client_accept (p : SocketAddr) (st : ClientState) : ClientState :=
  if decide (p ∈ incoming_challenges st)
  then send (reliable_unordered p (EncC2C Accept)) st else st.

(** [Client::check_match] *)
Definition check_match (st : ClientState) : option SocketAddr :=
  match status st with MatchConfirmed p => Some p | _ => None end.

(** The client as [Client::new] leaves it. *)
Definition client_new : ClientState := mkClient Idle Disconnected ∅ ∅ ∅ [].

(** ** The rendezvous server (mirai-matchmaking-server/src/main.rs) *)

Record ServerState := mkServer {
  queue : gset SocketAddr;
  ssent : list Packet;
}.

Definition server_send (p : Packet) (st : ServerState) : ServerState :=
  mkServer (queue st) (ssent st ++ [p]).

(** The [FromClient] dispatch of [with_socket]'s loop, for a message from
    [source]. *)
Definition server_handle_msg (source : SocketAddr) (m : ClientToServer)
    (st : ServerState) : ServerState :=
  match m with
  | StatusCheck => server_send (reliable_unordered source (EncS2C Alive)) st
  | Queue =>
      let queue_clone := queue st ∖ {[source]} in
      let st := server_send (reliable_unordered source (EncS2C (Peers queue_clone))) st in
      let st := foldl (fun acc client =>
                         server_send (reliable_unordered client (EncS2C (Queued source))) acc)
                      st (elements queue_clone) in
      mkServer ({[source]} ∪ queue st) (ssent st)
  | Dequeue => mkServer (queue st ∖ {[source]}) (ssent st)
  | Heartbeat => st
  end.

Definition server_handle_event (ev : SocketEvent) (st : ServerState) : ServerState :=
  match ev with
  | EvPacket p =>
      match deserialize_c2s (pk_payload p) with
      | Some m => server_handle_msg (pk_addr p) m st
      | None => st
      end
  | EvConnect _ => st
  | EvTimeout a => mkServer (queue st ∖ {[a]}) (ssent st)
  end.

Definition server_new : ServerState := mkServer ∅ [].

(** What [a] receives, in order, from the packets sent so far. *)
Definition received (a : SocketAddr) (l : list Packet) : list Payload :=
  map pk_payload (filter (fun p => pk_addr p = a) l).

(** [Client::decline]: [HashSet::remove] reports whether [addr] was there. *)
Definition client_decline (a : SocketAddr) (st : ClientState) : ClientState :=
  if decide (a ∈ incoming_challenges st)
  then send (reliable_unordered a (EncC2C Decline))
         (set_incoming (incoming_challenges st ∖ {[a]}) st)
  else st.

#[global] Instance Status_eq_dec : EqDecision Status.
Proof. solve_decision. Defined.

(** The server loop after a sequence of transport events. *)
Definition server_run (evs : list SocketEvent) (st : ServerState) : ServerState :=
  foldl (fun st e => server_handle_event e st) st evs.

(** The shape of every packet the server sends: reliable, never [Dequeued],
    never a [Peers] set containing its recipient, never [Queued] about its
    recipient. *)
Definition server_packet_ok (p : Packet) : Prop :=
  pk_delivery p = Reliable_unordered ∧
  match pk_payload p with
  | EncS2C Alive => True
  | EncS2C (Peers ps) => pk_addr p ∉ ps
  | EncS2C (Queued a) => a ≠ pk_addr p
  | _ => False
  end.

(** The client state an iteration ends in, whether it quits or goes on. *)
Definition loop_state (r : LoopStep) : ClientState :=
  match r with LQuit st | LNext _ st => st end.

(** A client waiting on a peer ([MatchPending(p)]) has challenged it. *)
Definition pending_inv (st : ClientState) : Prop :=
  ∀ p, status st = MatchPending p → p ∈ outgoing_challenges st.

(** The handshake between client A at [a] and client B at [b], each with
    its own handler: A challenges B, B accepts, and every packet is
    delivered once, in protocol order. *)
Definition handshake_between (envA envB : HandlerEnv) (a b : SocketAddr) (now : N)
    (stA stB : ClientState) : option (ClientState * ClientState) :=
  let A1 := client_challenge b stA in
  B1 ← handle_event envB now (EvPacket (mkPacket a (EncC2C Challenge) Reliable_unordered)) stB;
  let B2 := client_accept a B1 in
  A2 ← handle_event envA now (EvPacket (mkPacket b (EncC2C Accept) Reliable_unordered)) A1;
  B3 ← handle_event envB now (EvPacket (mkPacket a (EncC2C (Start 0)) Reliable_unordered)) B2;
  A3 ← handle_event envA now (EvPacket (mkPacket b (EncC2C (Start 0)) Reliable_unordered)) A2;
  Some (A3, B3).

(** ** A two-client handshake, delivered without loss

    Server at 1, client A at 10, client B at 20, both [Queued] and knowing
    each other.  A challenges B, B accepts, and each packet is delivered in
    the order the protocol produces them. *)

Definition hs_env : HandlerEnv := mkEnv 1 0.
Definition hs_A0 : ClientState := mkClient SQueued Connected {[20 := Peer_new 20]} ∅ ∅ [].
Definition hs_B0 : ClientState := mkClient SQueued Connected {[10 := Peer_new 10]} ∅ ∅ [].

Definition deliver (src : SocketAddr) (m : ClientToClient) (now : N)
    (st : ClientState) : option ClientState :=
  handle_event hs_env now (EvPacket (mkPacket src (EncC2C m) Reliable_unordered)) st.

Definition handshake : option (ClientState * ClientState) :=
  let A1 := client_challenge 20 hs_A0 in
  B1 ← deliver 10 Challenge 1 hs_B0;
  let B2 := client_accept 10 B1 in
  A2 ← deliver 20 Accept 2 A1;
  B3 ← deliver 10 (Start 0) 3 B2;
  A3 ← deliver 20 (Start 0) 4 A2;
  Some (A3, B3).

(** A client knowing peer 2, for the latency examples. *)
Definition ping_st : ClientState :=
  mkClient SQueued Connected {[2 := Peer_new 2]} ∅ ∅ [].

Definition is_connecting (c : ServerConnection) : bool :=
  match c with Connecting _ => true | _ => false end.

(** Three clients 1, 2, 3 queuing at the server in that order. *)
Definition queue_all (l : list SocketAddr) (st : ServerState) : ServerState :=
  foldl (fun st a => server_handle_msg a Queue st) st l.

Definition three_queued : ServerState := queue_all [1; 2; 3] server_new.

(** ** Proofs *)

Ltac from_peer H :=
  unfold handle_event; cbn [pk_addr pk_payload deserialize_c2c];
  rewrite (decide_False _ _ H).

Lemma handle_client_packet env now src d m st :
  src ≠ server_addr env →
  handle_event env now (EvPacket (mkPacket src (EncC2C m) d)) st =
  handle_client_msg env now src m st.
Proof. intros Hs. by from_peer Hs. Qed.

(** Claim C2: an [Accept] from a peer starts a pending match, answering
    [Start(0)], exactly when the client is [Queued] and has challenged the
    sender; otherwise the state, including what was sent, is unchanged. *)
Theorem accept_guarded env now src d st :
  src ≠ server_addr env →
  (status st = SQueued ∧ src ∈ outgoing_challenges st →
   handle_event env now (EvPacket (mkPacket src (EncC2C Accept) d)) st =
   Some (set_status (MatchPending src)
           (send (reliable_unordered src (EncC2C (Start 0))) st))) ∧
  (¬ (status st = SQueued ∧ src ∈ outgoing_challenges st) →
   handle_event env now (EvPacket (mkPacket src (EncC2C Accept) d)) st = Some st).
Proof.
  intros Hs. rewrite handle_client_packet by exact Hs. cbn [handle_client_msg].
  split.
  - intros [Hq Hin]. rewrite Hq. by rewrite decide_True.
  - intros Hn. destruct (status st) eqn:E; try done.
    rewrite decide_False; [done|]. intros Hin. apply Hn. done.
Qed.

Lemma accept_guarded_witness :
  2 ≠ server_addr hs_env ∧
  handle_event hs_env 0 (EvPacket (mkPacket 2 (EncC2C Accept) Unreliable))
    (mkClient SQueued Connected ∅ ∅ {[2]} []) =
  Some (set_status (MatchPending 2)
          (send (reliable_unordered 2 (EncC2C (Start 0)))
             (mkClient SQueued Connected ∅ ∅ {[2]} []))).
Proof.
  split; [cbn; lia|].
  apply (accept_guarded hs_env 0 2 Unreliable (mkClient SQueued Connected ∅ ∅ {[2]} [])).
  - cbn; lia.
  - split; [reflexivity|]. set_solver.
Defined.

(** Claim C6: once the match is [MatchConfirmed p], a further [Accept] or
    [Start] from any peer changes nothing and sends nothing. *)
Theorem confirmed_duplicate_noop env now src d p m st :
  status st = MatchConfirmed p →
  src ≠ server_addr env →
  (m = Accept ∨ ∃ t, m = Start t) →
  handle_event env now (EvPacket (mkPacket src (EncC2C m) d)) st = Some st.
Proof.
  intros Hst Hs Hm. rewrite handle_client_packet by exact Hs.
  destruct Hm as [-> | [t ->]]; cbn [handle_client_msg]; by rewrite Hst.
Qed.

Lemma confirmed_duplicate_noop_witness :
  handle_event hs_env 9 (EvPacket (mkPacket 20 (EncC2C (Start 3)) Reliable_unordered))
    (mkClient (MatchConfirmed 20) Connected ∅ ∅ {[20]} []) =
  Some (mkClient (MatchConfirmed 20) Connected ∅ ∅ {[20]} []).
Proof.
  apply (confirmed_duplicate_noop hs_env 9 20 Reliable_unordered 20 (Start 3)).
  - reflexivity.
  - cbn; lia.
  - right. exists 3%N. reflexivity.
Defined.

(** The [MatchPending] branch of [Start] confirms without touching the
    challenge sets, unlike the [Queued] branch. *)
Lemma start_pending_keeps_sets env now src d t st :
  status st = MatchPending src →
  src ≠ server_addr env →
  handle_event env now (EvPacket (mkPacket src (EncC2C (Start t)) d)) st =
  Some (set_status (MatchConfirmed src) st).
Proof.
  intros Hst Hs. rewrite handle_client_packet by exact Hs.
  cbn [handle_client_msg]. rewrite Hst. by rewrite decide_True.
Qed.

Lemma start_queued_clears env now src d t st :
  status st = SQueued →
  src ≠ server_addr env →
  ∃ st', handle_event env now (EvPacket (mkPacket src (EncC2C (Start t)) d)) st = Some st' ∧
         status st' = MatchConfirmed src ∧
         incoming_challenges st' = ∅ ∧ outgoing_challenges st' = ∅.
Proof.
  intros Hst Hs. rewrite handle_client_packet by exact Hs.
  cbn [handle_client_msg]. rewrite Hst. eexists; split; [reflexivity|]. done.
Qed.

(** Claim C1 (evaluated): in the lossless handshake both clients reach a
    confirmed match with each other; B, confirmed through the [Queued]
    branch, has empty challenge sets, but A, confirmed through the
    [MatchPending] branch, still has B in [outgoing_challenges]. *)
Theorem handshake_outgoing_not_cleared :
  option_map (fun '(A, B) =>
                (check_match A, incoming_challenges A, outgoing_challenges A,
                 check_match B, incoming_challenges B, outgoing_challenges B))
             handshake =
  Some (Some 20, ∅, {[20]}, Some 10, ∅, ∅).
Proof. reflexivity. Qed.

(** *** Latency estimation *)

Lemma half_sum_le (l s : N) :
  (l <= U128_MAX)%N → (s <= U128_MAX)%N → (l / 2 + s / 2 <= U128_MAX)%N.
Proof.
  intros Hl Hs.
  pose proof (N.Div0.mul_div_le l 2).
  pose proof (N.Div0.mul_div_le s 2).
  lia.
Qed.

Lemma add_ping_ok (p : Peer) (s : N) :
  (ping_count p < U32_MAX)%N →
  (∀ l, latency p = Some l → l <= U128_MAX)%N →
  (s <= U128_MAX)%N →
  add_ping p s =
  Some (mkPeer (addr p)
          (Some match latency p with Some old => (old / 2 + s / 2)%N | None => s end)
          (ping_count p + 1) (pstatus p)).
Proof.
  intros Hc Hl Hs. unfold add_ping, checked_add_u32.
  rewrite (proj2 (N.leb_le _ _)) by lia.
  destruct (latency p) as [l|] eqn:E; [|done].
  unfold checked_add_u128.
  rewrite (proj2 (N.leb_le _ _)); [done|].
  apply half_sum_le; [by apply Hl | done].
Qed.

(** Claim C7: a [PingResponse(t0)] from a known peer feeds the sample
    [(now - t0) / 2] (with [now] the client's elapsed nanoseconds) into the
    peer's estimate: the sample itself when there was none, otherwise
    [old / 2 + sample / 2]; the sample count grows by one.  Samples [s1]
    then [s2] on a fresh peer give [s1], then [s1 / 2 + s2 / 2].  The
    subtraction is taken where it is defined ([t0 <= now], see C10), with
    [u128]/[u32] values in range and the count below [u32::MAX]. *)
Theorem ping_response_latency env now src d t0 peer st :
  src ≠ server_addr env →
  peers st !! src = Some peer →
  (now - start_time env <= U128_MAX)%N →
  (t0 <= now - start_time env)%N →
  (ping_count peer < U32_MAX)%N →
  (∀ l, latency peer = Some l → l <= U128_MAX)%N →
  (let sample := ((now - start_time env - t0) / 2)%N in
   handle_event env now (EvPacket (mkPacket src (EncC2C (PingResponse t0)) d)) st =
   Some (set_peers
           (<[src := mkPeer (addr peer)
                      (Some match latency peer with
                            | Some old => (old / 2 + sample / 2)%N
                            | None => sample
                            end)
                      (ping_count peer + 1) (pstatus peer)]> (peers st)) st)) ∧
  (∀ a s1 s2, (s1 <= U128_MAX)%N → (s2 <= U128_MAX)%N →
   ∃ p1 p2, add_ping (Peer_new a) s1 = Some p1 ∧ latency p1 = Some s1 ∧
            add_ping p1 s2 = Some p2 ∧ latency p2 = Some (s1 / 2 + s2 / 2)%N ∧
            ping_count p1 = 1%N ∧ ping_count p2 = 2%N).
Proof.
  intros Hs Hp Hnow Ht Hc Hl. split.
  - cbv zeta. rewrite handle_client_packet by exact Hs. cbn [handle_client_msg].
    rewrite Hp. unfold checked_sub_u128. rewrite (proj2 (N.leb_le _ _) Ht).
    rewrite add_ping_ok; [done|done|done|].
    pose proof (N.Div0.div_le_upper_bound (now - start_time env - t0) 2
                  (now - start_time env - t0) ltac:(lia)). lia.
  - intros a s1 s2 H1 H2.
    rewrite (add_ping_ok (Peer_new a) s1); cbn; [| unfold U32_MAX; lia | done | done].
    eexists _, _. split; [reflexivity|]. split; [reflexivity|].
    rewrite (add_ping_ok _ s2); cbn; [| unfold U32_MAX; lia | intros l [= <-]; done | done].
    repeat split.
Qed.

Lemma ping_response_latency_witness :
  handle_event hs_env 500 (EvPacket (mkPacket 2 (EncC2C (PingResponse 100)) Unreliable)) ping_st =
  Some (set_peers (<[2 := mkPeer 2 (Some 200%N) 1 PSNone]> (peers ping_st)) ping_st) ∧
  (∃ p1 p2, add_ping (Peer_new 7) 40 = Some p1 ∧ latency p1 = Some 40%N ∧
            add_ping p1 10 = Some p2 ∧ latency p2 = Some (40 / 2 + 10 / 2)%N ∧
            ping_count p1 = 1%N ∧ ping_count p2 = 2%N).
Proof.
  destruct (ping_response_latency hs_env 500 2 Unreliable 100 (Peer_new 2) ping_st)
    as [H1 H2].
  - cbn; lia.
  - reflexivity.
  - vm_compute; discriminate.
  - vm_compute; discriminate.
  - vm_compute; reflexivity.
  - intros l Hl; discriminate.
  - split; [exact H1|]. apply H2; vm_compute; discriminate.
Defined.

(** Claim C10: the sample's subtraction [local_time - past_local_time] on
    [u128] is unguarded: it is defined exactly when [t0] does not exceed the
    client's elapsed nanoseconds, and a [PingResponse] from a known peer
    whose timestamp exceeds them makes the handler panic. *)
Theorem ping_response_underflow env now src d t0 peer st :
  src ≠ server_addr env →
  peers st !! src = Some peer →
  (checked_sub_u128 (now - start_time env) t0 = Some (now - start_time env - t0)%N ↔
   (t0 <= now - start_time env)%N) ∧
  (checked_sub_u128 (now - start_time env) t0 = None ↔ (now - start_time env < t0)%N) ∧
  ((now - start_time env < t0)%N →
   handle_event env now (EvPacket (mkPacket src (EncC2C (PingResponse t0)) d)) st = None).
Proof.
  intros Hs Hp. unfold checked_sub_u128.
  destruct (N.leb_spec t0 (now - start_time env)) as [H|H].
  - split; [done|]. split; [split; [discriminate|lia]|lia].
  - split; [split; [discriminate|lia]|]. split; [done|].
    intros _. rewrite handle_client_packet by exact Hs. cbn [handle_client_msg].
    rewrite Hp. unfold checked_sub_u128.
    destruct (N.leb_spec t0 (now - start_time env)); [lia|done].
Qed.

Lemma ping_response_underflow_witness :
  handle_event hs_env 5 (EvPacket (mkPacket 2 (EncC2C (PingResponse 9)) Unreliable)) ping_st = None.
Proof.
  apply (ping_response_underflow hs_env 5 2 Unreliable 9 (Peer_new 2) ping_st).
  - cbn; lia.
  - reflexivity.
  - cbn; lia.
Defined.

(** *** The peer table on [Peers] *)

Lemma insert_new_peers_lookup (l : list SocketAddr) (m : gmap SocketAddr Peer) a :
  foldl (fun acc b => <[b := Peer_new b]> acc) m l !! a =
  if decide (a ∈ l) then Some (Peer_new a) else m !! a.
Proof.
  revert m. induction l as [|b l IH]; intros m; cbn [foldl].
  - rewrite decide_False; [done|]. apply not_elem_of_nil.
  - rewrite IH. destruct (decide (a ∈ l)) as [Hin|Hin].
    + rewrite decide_True; [done|]. by apply elem_of_cons; right.
    + destruct (decide (b = a)) as [->|Hne].
      * rewrite decide_True by (apply elem_of_cons; by left).
        apply lookup_insert_eq.
      * rewrite decide_False.
        -- by apply lookup_insert_ne.
        -- rewrite elem_of_cons. intros [->|?]; done.
Qed.

(** Claim C9: on [Peers(set)] from the server, every address of [set] is
    (re)inserted as [Peer::new]: its latency estimate becomes [None] and its
    sample count 0, whatever they were; other entries are untouched. *)
Theorem peers_msg_resets env now d (new_peers : gset SocketAddr) st :
  ∃ st',
    handle_event env now
      (EvPacket (mkPacket (server_addr env) (EncS2C (Peers new_peers)) d)) st = Some st' ∧
    (∀ a, a ∈ new_peers →
          peers st' !! a = Some (Peer_new a) ∧
          latency (Peer_new a) = None ∧ ping_count (Peer_new a) = 0%N) ∧
    (∀ a, a ∉ new_peers → peers st' !! a = peers st !! a).
Proof.
  unfold handle_event. cbn [pk_addr pk_payload deserialize_s2c].
  rewrite decide_True by done. cbn [handle_server_msg].
  set (st1 := set_peers (insert_new_peers new_peers (peers st)) st).
  assert (Hp : peers st1 = insert_new_peers new_peers (peers st)) by done.
  eexists. split; [reflexivity|].
  assert (Hq : peers (match status st1 with
                      | QueuePending => set_status SQueued st1
                      | _ => st1 end) = peers st1)
    by (destruct (status st1); done).
  rewrite Hq, Hp. unfold insert_new_peers. split.
  - intros a Ha. rewrite insert_new_peers_lookup.
    rewrite decide_True; [done|]. by apply elem_of_elements.
  - intros a Ha. rewrite insert_new_peers_lookup.
    rewrite decide_False; [done|]. by rewrite elem_of_elements.
Qed.

(** *** Server-connection status *)

Lemma handle_client_msg_server_connection env now src m st st' :
  handle_client_msg env now src m st = Some st' →
  server_connection st' = server_connection st.
Proof.
  destruct m; cbn [handle_client_msg].
  - intros [= <-]; done.
  - destruct (peers st !! src); [|intros [= <-]; done].
    destruct (checked_sub_u128 _ _); [|discriminate].
    destruct (add_ping _ _); [|discriminate]. intros [= <-]; done.
  - intros [= <-]; done.
  - destruct (status st); try (intros [= <-]; done).
    case_decide; intros [= <-]; done.
  - cbn [status set_outgoing].
    destruct (status st); try (intros [= <-]; done).
    case_decide; intros [= <-]; done.
  - destruct (status st); try (intros [= <-]; done).
    case_decide; intros [= <-]; done.
Qed.

Lemma send_pings_server_connection env now st :
  server_connection (send_pings env now st) = server_connection st.
Proof.
  unfold send_pings. generalize (map snd (map_to_list (peers st))) as l.
  intros l. revert st. induction l as [|p l IH]; intros st; cbn [foldl]; [done|].
  by rewrite IH.
Qed.

(** No handler step produces [Connecting]: only a state that already was
    [Connecting] can be [Connecting] after an iteration. *)
Lemma handler_never_connecting env now ev msg pt st r :
  is_connecting (server_connection st) = false →
  handler_iteration env now ev msg pt st = Some r →
  match r with
  | LQuit st' | LNext _ st' => is_connecting (server_connection st') = false
  end.
Proof.
  intros Hc. unfold handler_iteration.
  assert (Hev : ∀ st', match ev with Some e => handle_event env now e st | None => Some st end
                       = Some st' → is_connecting (server_connection st') = false).
  { intros st' H. destruct ev as [e|]; [|by injection H as <-].
    destruct e as [p|a|a]; cbn [handle_event] in H.
    - case_decide.
      + destruct (deserialize_s2c _) as [m|]; [|by injection H as <-].
        injection H as <-. destruct m; cbn; try done.
        destruct (status st); done.
      + destruct (deserialize_c2c _) as [m|]; [|by injection H as <-].
        apply handle_client_msg_server_connection in H. by rewrite H.
    - case_decide; injection H as <-; done.
    - case_decide; injection H as <-; done. }
  destruct (match ev with Some e => handle_event env now e st | None => Some st end)
    as [st1|] eqn:E; [|discriminate].
  specialize (Hev st1 eq_refl).
  destruct msg as [[]|].
  - intros [= <-]. done.
  - destruct (PING_TIMER_NANOS <? now - pt)%N.
    + intros [= <-]. unfold check_connecting.
      rewrite send_pings_server_connection.
      destruct (server_connection st1) eqn:E1; cbn in Hev; try discriminate;
        by rewrite send_pings_server_connection, E1.
    + intros [= <-]. unfold check_connecting.
      destruct (server_connection st1) eqn:E1; cbn in Hev; try discriminate;
        by rewrite E1.
Qed.

(** The transitions of the server-connection status that the handler does
    make: [Connected] on a connect notification for the server address,
    [Disconnected] on a timeout notification for it, and [Disconnected]
    once a [Connecting] deadline has passed. *)
Lemma server_connection_transitions env now st deadline :
  handle_event env now (EvConnect (server_addr env)) st =
    Some (set_server_connection Connected st) ∧
  handle_event env now (EvTimeout (server_addr env)) st =
    Some (set_server_connection Disconnected st) ∧
  (server_connection st = Connecting deadline → (deadline < now)%N →
   server_connection (check_connecting now st) = Disconnected).
Proof.
  cbn [handle_event]. rewrite !decide_True by done.
  split; [done|]. split; [done|].
  intros Hc Hd. unfold check_connecting. rewrite Hc.
  by rewrite (proj2 (N.ltb_lt _ _) Hd).
Qed.

(** Claim C8 (evaluated): [queue()] from [Idle] while [Disconnected] sends
    [Queue] and moves to [QueuePending], but the server connection stays
    [Disconnected]; it never becomes [Connecting]. *)
Theorem queue_stays_disconnected s st :
  status st = Idle →
  server_connection st = Disconnected →
  server_connection (client_queue s st) = Disconnected ∧
  status (client_queue s st) = QueuePending ∧
  sent (client_queue s st) = sent st ++ [reliable_unordered s (EncC2S Queue)].
Proof. intros Hs Hc. unfold client_queue. rewrite Hs. cbn. done. Qed.

Lemma queue_stays_disconnected_witness :
  server_connection (client_queue 1 client_new) = Disconnected ∧
  status (client_queue 1 client_new) = QueuePending ∧
  sent (client_queue 1 client_new) = [reliable_unordered 1 (EncC2S Queue)].
Proof. apply (queue_stays_disconnected 1 client_new); reflexivity. Defined.

(** *** The rendezvous server *)

Ltac settle_decide :=
  match goal with
  | |- context [decide ?P] =>
      first [ rewrite (decide_True (P := P)) by first [done | congruence | set_solver]
            | rewrite (decide_False (P := P)) by first [done | congruence | set_solver] ]
  end.

Lemma server_send_fold (f : SocketAddr → Packet) (l : list SocketAddr) st :
  foldl (fun acc c => server_send (f c) acc) st l =
  mkServer (queue st) (ssent st ++ map f l).
Proof.
  revert st. induction l as [|c l IH]; intros st; cbn [foldl map].
  - destruct st; cbn. by rewrite app_nil_r.
  - rewrite IH. cbn. by rewrite <- app_assoc.
Qed.

Lemma server_queue_msg src st :
  server_handle_msg src Queue st =
  mkServer ({[src]} ∪ queue st)
    (ssent st ++ reliable_unordered src (EncS2C (Peers (queue st ∖ {[src]})))
       :: map (fun c => reliable_unordered c (EncS2C (Queued src)))
              (elements (queue st ∖ {[src]}))).
Proof.
  cbn [server_handle_msg]. rewrite server_send_fold. cbn.
  by rewrite <- app_assoc.
Qed.

Lemma received_app a l1 l2 : received a (l1 ++ l2) = received a l1 ++ received a l2.
Proof. unfold received. by rewrite filter_app, map_app. Qed.

Lemma received_cons a p l :
  received a (p :: l) =
  (if decide (pk_addr p = a) then [pk_payload p] else []) ++ received a l.
Proof. unfold received. rewrite filter_cons. by case_decide. Qed.

Lemma received_broadcast_list a (P : Payload) (l : list SocketAddr) :
  NoDup l →
  received a (map (fun c => reliable_unordered c P) l) =
  if decide (a ∈ l) then [P] else [].
Proof.
  induction l as [|c l IH]; intros Hnd; cbn [map].
  - rewrite decide_False; [done|]. apply not_elem_of_nil.
  - apply NoDup_cons in Hnd as [Hc Hnd].
    rewrite received_cons, IH by exact Hnd. cbn [pk_addr pk_payload].
    repeat case_decide; subst; rewrite ?elem_of_cons in *; naive_solver.
Qed.

Lemma received_broadcast a P (S : gset SocketAddr) :
  received a (map (fun c => reliable_unordered c P) (elements S)) =
  if decide (a ∈ S) then [P] else [].
Proof.
  rewrite received_broadcast_list by apply NoDup_elements.
  destruct (decide (a ∈ elements S)) as [H|H];
    rewrite elem_of_elements in H; [rewrite decide_True | rewrite decide_False]; done.
Qed.

(** Claim C4: a [Queue] from an address not yet queued is answered with
    [Peers] of the pre-insertion queue without the sender, then [Queued(src)]
    goes to every other queued address, and only then is the sender
    inserted.  For three distinct clients queuing in order, each receives
    exactly the announced messages. *)
Theorem queue_new_member src st :
  src ∉ queue st →
  server_handle_msg src Queue st =
  mkServer ({[src]} ∪ queue st)
    (ssent st ++ reliable_unordered src (EncS2C (Peers (queue st ∖ {[src]})))
       :: map (fun c => reliable_unordered c (EncS2C (Queued src)))
              (elements (queue st ∖ {[src]}))) ∧
  queue st ∖ {[src]} = queue st ∧
  (∀ q1 q2 q3, q1 ≠ q2 → q1 ≠ q3 → q2 ≠ q3 →
   let s := queue_all [q1; q2; q3] server_new in
   received q1 (ssent s) = [EncS2C (Peers ∅); EncS2C (Queued q2); EncS2C (Queued q3)] ∧
   received q2 (ssent s) = [EncS2C (Peers {[q1]}); EncS2C (Queued q3)] ∧
   received q3 (ssent s) = [EncS2C (Peers {[q1; q2]})]).
Proof.
  intros Hsrc. split; [apply server_queue_msg|]. split; [set_solver|].
  intros q1 q2 q3 H12 H13 H23. cbv zeta. unfold queue_all. cbn [foldl].
  rewrite !server_queue_msg. cbn [queue ssent server_new].
  rewrite !received_app, !received_cons, !received_broadcast.
  unfold reliable_unordered. cbn [pk_addr pk_payload].
  repeat settle_decide.
  assert (E0 : ∅ ∖ {[q1]} = (∅ : gset SocketAddr)) by set_solver.
  assert (E1 : ({[q1]} ∪ ∅) ∖ {[q2]} = ({[q1]} : gset SocketAddr)) by set_solver.
  assert (E2 : ({[q2]} ∪ ({[q1]} ∪ ∅)) ∖ {[q3]} = ({[q1; q2]} : gset SocketAddr))
    by set_solver.
  rewrite E0, E1, E2. cbn. repeat split.
Qed.

Lemma queue_new_member_witness :
  server_handle_msg 3 Queue (mkServer {[1; 2]} []) =
  mkServer ({[3]} ∪ {[1; 2]})
    ([] ++ reliable_unordered 3 (EncS2C (Peers ({[1; 2]} ∖ {[3]})))
       :: map (fun c => reliable_unordered c (EncS2C (Queued 3)))
              (elements ({[1; 2]} ∖ {[3]} : gset SocketAddr))) ∧
  received 2 (ssent three_queued) = [EncS2C (Peers {[1]}); EncS2C (Queued 3)].
Proof.
  destruct (queue_new_member 3 (mkServer {[1; 2]} [])) as [H1 [_ H3]].
  - cbn. set_solver.
  - split; [exact H1|]. apply (H3 1 2 3); lia.
Defined.

(** Claim C5, as stated, fails: with 1 and 2 queued, a second [Queue] from
    1 still sends [Queued(1)] to 2. *)
Lemma requeue_broadcasts :
  let s := server_handle_msg 1 Queue (mkServer {[1; 2]} []) in
  received 2 (ssent s) = [EncS2C (Queued 1)] ∧
  ssent s ≠ [reliable_unordered 1 (EncS2C (Peers {[2]}))].
Proof. split; [reflexivity | discriminate]. Qed.

(** Claim C5, amended: a [Queue] from an address already queued leaves the
    queue unchanged, replies [Peers(queue \ {src})] and, as for a newcomer,
    sends [Queued(src)] to every other queued address. *)
Theorem queue_existing_member src st :
  src ∈ queue st →
  server_handle_msg src Queue st =
  mkServer (queue st)
    (ssent st ++ reliable_unordered src (EncS2C (Peers (queue st ∖ {[src]})))
       :: map (fun c => reliable_unordered c (EncS2C (Queued src)))
              (elements (queue st ∖ {[src]}))).
Proof.
  intros Hsrc. rewrite server_queue_msg.
  assert (E : {[src]} ∪ queue st = queue st) by set_solver.
  by rewrite E.
Qed.

Lemma queue_existing_member_witness :
  let st := mkServer {[1; 2]} [] in
  server_handle_msg 1 Queue st =
  mkServer (queue st)
    (ssent st ++ reliable_unordered 1 (EncS2C (Peers (queue st ∖ {[1]})))
       :: map (fun c => reliable_unordered c (EncS2C (Queued 1)))
              (elements (queue st ∖ {[1]}))).
Proof. apply (queue_existing_member 1 (mkServer {[1; 2]} [])). cbn. set_solver. Defined.

(** Claim C3, as stated, fails: after 1, 2, 3 queue, a [Dequeue] from 2
    removes it but sends nothing; 1 and 3 never receive [Dequeued(2)]. *)
Lemma dequeue_no_broadcast :
  let s := server_handle_msg 2 Dequeue three_queued in
  queue s = {[1; 3]} ∧
  ssent s = ssent three_queued ∧
  received 1 (ssent s) = [EncS2C (Peers ∅); EncS2C (Queued 2); EncS2C (Queued 3)] ∧
  received 3 (ssent s) = [EncS2C (Peers {[1; 2]})].
Proof. vm_compute. repeat split. Qed.

(** Claim C3, amended: a [Dequeue] from [src] removes [src] from the queue
    (nothing changes if it was not queued) and sends no message. *)
Theorem dequeue_removes_silently src st :
  server_handle_msg src Dequeue st = mkServer (queue st ∖ {[src]}) (ssent st).
Proof. reflexivity. Qed.

(** ** Further properties of the client handler *)

Lemma handle_server_packet env now d m st :
  handle_event env now (EvPacket (mkPacket (server_addr env) (EncS2C m) d)) st =
  Some (handle_server_msg m st).
Proof. unfold handle_event. cbn. by rewrite decide_True. Qed.





(** [Queued(a)] from the server followed by [Dequeued(a)] leaves the peer
    table as it was with [a] removed; a [Dequeued] for an unknown address
    changes nothing. *)
Theorem queued_then_dequeued env now d a st :
  (∃ st1 st2,
     handle_event env now (EvPacket (mkPacket (server_addr env) (EncS2C (Queued a)) d)) st
       = Some st1 ∧
     peers st1 !! a = Some (Peer_new a) ∧
     handle_event env now (EvPacket (mkPacket (server_addr env) (EncS2C (Dequeued a)) d)) st1
       = Some st2 ∧
     st2 = set_peers (delete a (peers st)) st) ∧
  (peers st !! a = None →
   handle_event env now (EvPacket (mkPacket (server_addr env) (EncS2C (Dequeued a)) d)) st
     = Some st).
Proof.
  split.
  - set (st1 := set_peers (<[a := Peer_new a]> (peers st)) st).
    exists st1, (set_peers (delete a (peers st1)) st1).
    rewrite !handle_server_packet. cbn [handle_server_msg].
    split; [reflexivity|]. split; [apply lookup_insert_eq|].
    split; [reflexivity|]. cbn. by rewrite delete_insert_eq.
  - rewrite handle_server_packet. cbn [handle_server_msg].
    intros Hn. rewrite delete_id by exact Hn. by destruct st.
Qed.

Lemma queued_then_dequeued_witness :
  handle_event hs_env 0 (EvPacket (mkPacket 1 (EncS2C (Dequeued 5)) Reliable_unordered)) ping_st
  = Some ping_st.
Proof. apply (queued_then_dequeued hs_env 0 Reliable_unordered 5 ping_st). reflexivity. Defined.


(** ** Properties of the client's commands *)



(** [queue()] is idempotent: a second call is a no-op; and [queue()]
    followed by [dequeue()] from [Idle] returns to [Idle], leaves the
    server connection [Disconnected] and has sent [Queue] then
    [Dequeue] to the server. *)
Theorem queue_idempotent_and_undone s st :
  client_queue s (client_queue s st) = client_queue s st ∧
  (status st = Idle →
   client_dequeue s (client_queue s st) =
   mkClient Idle Disconnected (peers st) (incoming_challenges st) (outgoing_challenges st)
     (sent st ++ [reliable_unordered s (EncC2S Queue);
                  reliable_unordered s (EncC2S Dequeue)])).
Proof.
  unfold client_queue. split.
  - destruct (status st) eqn:E; cbn; rewrite ?E; done.
  - intros H. rewrite H. cbn. unfold set_server_connection, set_status, send. cbn.
    by rewrite <- app_assoc.
Qed.

Lemma queue_idempotent_and_undone_witness :
  client_dequeue 1 (client_queue 1 client_new) =
  mkClient Idle Disconnected ∅ ∅ ∅
    ([] ++ [reliable_unordered 1 (EncC2S Queue); reliable_unordered 1 (EncC2S Dequeue)]).
Proof. apply (queue_idempotent_and_undone 1 client_new). reflexivity. Defined.



(** [decline(a)] removes an incoming challenge from [a] and sends [Decline]
    once: a second [decline(a)] is a no-op, and declining an address that
    did not challenge us sends nothing. *)
Theorem decline_once a st :
  client_decline a (client_decline a st) = client_decline a st ∧
  (a ∉ incoming_challenges (client_decline a st)) ∧
  (a ∉ incoming_challenges st → client_decline a st = st).
Proof.
  unfold client_decline. split; [|split].
  - destruct (decide (a ∈ incoming_challenges st)) as [H|H].
    + cbn. rewrite decide_False; [done|]. set_solver.
    + by rewrite decide_False.
  - destruct (decide (a ∈ incoming_challenges st)); cbn; set_solver.
  - intros H. by rewrite decide_False.
Qed.

Lemma decline_once_witness :
  client_decline 7 (set_incoming {[2]} client_new) = set_incoming {[2]} client_new.
Proof. apply (decline_once 7 (set_incoming {[2]} client_new)). set_solver. Defined.

(** ** Invariants of the client *)

Lemma send_pings_fold env now (l : list Peer) st :
  foldl (fun acc (p : Peer) =>
           send (unreliable (addr p) (EncC2C (Ping (now - start_time env)%N))) acc) st l =
  mkClient (status st) (server_connection st) (peers st) (incoming_challenges st)
    (outgoing_challenges st)
    (sent st ++ map (fun p => unreliable (addr p) (EncC2C (Ping (now - start_time env)%N))) l).
Proof.
  revert st. induction l as [|p l IH]; intros st; cbn [foldl map].
  - destruct st; cbn. by rewrite app_nil_r.
  - rewrite IH. cbn. by rewrite <- app_assoc.
Qed.

Lemma check_connecting_fields now st :
  status (check_connecting now st) = status st ∧
  outgoing_challenges (check_connecting now st) = outgoing_challenges st.
Proof. unfold check_connecting. destruct (server_connection st); try done. by case_match. Qed.

(** Everything but the event: quitting, pinging and the deadline check
    touch neither the status nor the outgoing challenges. *)
Lemma handler_iteration_after_event env now ev msg pt st r :
  handler_iteration env now ev msg pt st = Some r →
  ∃ st1, match ev with Some e => handle_event env now e st | None => Some st end = Some st1 ∧
         status (loop_state r) = status st1 ∧
         outgoing_challenges (loop_state r) = outgoing_challenges st1.
Proof.
  unfold handler_iteration.
  destruct (match ev with Some e => handle_event env now e st | None => Some st end)
    as [st1|]; [|discriminate].
  intros H. exists st1. split; [done|].
  destruct msg as [[]|].
  - by injection H as <-.
  - destruct (PING_TIMER_NANOS <? now - pt)%N; injection H as <-; cbn [loop_state];
      rewrite !(proj1 (check_connecting_fields _ _)), !(proj2 (check_connecting_fields _ _));
      [unfold send_pings; rewrite send_pings_fold|]; done.
Qed.

Lemma handle_event_confirmed env now ev p st st' :
  status st = MatchConfirmed p →
  handle_event env now ev st = Some st' → status st' = MatchConfirmed p.
Proof.
  destruct st as [s c pm i o l]; cbn. intros ->.
  destruct ev as [[a pl d]|a|a]; cbn [handle_event pk_addr pk_payload].
  - case_decide.
    + destruct pl as [m|m|m]; cbn; [by intros [= <-]|by intros [= <-]|].
      intros [= <-]. destruct m; done.
    + destruct pl as [m|m|m]; cbn; [|by intros [= <-]|by intros [= <-]].
      destruct m; cbn.
      * by intros [= <-].
      * destruct (pm !! a); [|by intros [= <-]].
        destruct (checked_sub_u128 _ _); [|discriminate].
        destruct (add_ping _ _); [|discriminate]. by intros [= <-].
      * by intros [= <-].
      * by intros [= <-].
      * by intros [= <-].
      * by intros [= <-].
  - case_decide; by intros [= <-].
  - case_decide; by intros [= <-].
Qed.

(** Once [MatchConfirmed(p)], the client stays there: no iteration of the
    handler loop, whatever it receives, and none of the commands [queue],
    [dequeue], [challenge], [accept], [decline] changes the status. *)
Theorem match_confirmed_absorbing env now ev msg pt p s q st :
  status st = MatchConfirmed p →
  (∀ r, handler_iteration env now ev msg pt st = Some r →
        status (loop_state r) = MatchConfirmed p) ∧
  status (client_queue s st) = MatchConfirmed p ∧
  status (client_dequeue s st) = MatchConfirmed p ∧
  status (client_challenge q st) = MatchConfirmed p ∧
  status (client_accept q st) = MatchConfirmed p ∧
  status (client_decline q st) = MatchConfirmed p.
Proof.
  intros Hs. split.
  - intros r Hr. apply handler_iteration_after_event in Hr as (st1 & Hev & -> & _).
    destruct ev as [e|]; [|by injection Hev as <-].
    by apply (handle_event_confirmed env now e p st).
  - unfold client_queue, client_dequeue, client_accept, client_decline.
    rewrite Hs. split; [done|]. split; [done|]. split; [done|].
    split; case_decide; done.
Qed.

Lemma match_confirmed_absorbing_witness :
  handler_iteration hs_env 9 (Some (EvPacket (mkPacket 20 (EncC2C Decline) Reliable_unordered)))
    None 0 (set_status (MatchConfirmed 20) hs_A0) =
  Some (LNext 0 (set_outgoing ∅ (set_status (MatchConfirmed 20) hs_A0))) ∧
  status (client_dequeue 1 (set_status (MatchConfirmed 20) hs_A0)) = MatchConfirmed 20.
Proof.
  destruct (match_confirmed_absorbing hs_env 9
              (Some (EvPacket (mkPacket 20 (EncC2C Decline) Reliable_unordered)))
              None 0 20 1 20 (set_status (MatchConfirmed 20) hs_A0) eq_refl)
    as (_ & _ & H & _).
  split; [vm_compute; reflexivity | exact H].
Defined.

Ltac pending_case Hinv :=
  intros [= <-]; unfold pending_inv in *; cbn in *;
  intros q Hq; first [ discriminate
                       | injection Hq as <-; set_solver
                       | apply Hinv in Hq; set_solver ].

Lemma handle_client_msg_pending env now src m st st' :
  pending_inv st → handle_client_msg env now src m st = Some st' → pending_inv st'.
Proof.
  intros Hinv. destruct st as [s c pm i o l].
  destruct m; cbn [handle_client_msg status outgoing_challenges peers].
  - pending_case Hinv.
  - destruct (pm !! src); [|pending_case Hinv].
    destruct (checked_sub_u128 _ _); [|discriminate].
    destruct (add_ping _ _); [|discriminate]. pending_case Hinv.
  - pending_case Hinv.
  - destruct s; try pending_case Hinv. case_decide; pending_case Hinv.
  - cbn. destruct s; try pending_case Hinv.
    case_decide; subst; [pending_case Hinv|].
    intros [= <-]. unfold pending_inv in *; cbn in *.
    intros q [= <-]. specialize (Hinv _ eq_refl). set_solver.
  - destruct s; try pending_case Hinv. case_decide; pending_case Hinv.
Qed.

Lemma handle_event_pending env now ev st st' :
  pending_inv st → handle_event env now ev st = Some st' → pending_inv st'.
Proof.
  intros Hinv. destruct ev as [[a pl d]|a|a]; cbn [handle_event pk_addr pk_payload].
  - case_decide.
    + destruct pl as [m|m|m]; cbn; [pending_case Hinv|pending_case Hinv|].
      intros [= <-]. destruct m; try (unfold pending_inv in *; cbn; exact Hinv).
      destruct st as [s0 c0 pm0 i0 o0 l0]; unfold pending_inv in *; cbn in *.
      destruct s0; cbn; intros q Hq; try discriminate; by apply Hinv.
    + destruct pl as [m|m|m]; cbn; [|pending_case Hinv|pending_case Hinv].
      by apply handle_client_msg_pending.
  - case_decide; pending_case Hinv.
  - case_decide; pending_case Hinv.
Qed.

(** The client keeps [MatchPending(p) → p ∈ outgoing_challenges]: it holds
    for a new client and every handler iteration and every command
    preserves it; a pending match always refers to a peer we challenged. *)
Theorem pending_invariant env now ev msg pt s q st r :
  pending_inv client_new ∧
  (pending_inv st →
   (handler_iteration env now ev msg pt st = Some r → pending_inv (loop_state r)) ∧
   pending_inv (client_queue s st) ∧ pending_inv (client_dequeue s st) ∧
   pending_inv (client_challenge q st) ∧ pending_inv (client_accept q st) ∧
   pending_inv (client_decline q st)).
Proof.
  split; [intros p Hp; discriminate|].
  intros Hinv. split; [|split; [|split; [|split; [|split]]]].
  - intros Hr. apply handler_iteration_after_event in Hr as (st1 & Hev & Hs & Ho).
    assert (H1 : pending_inv st1).
    { destruct ev as [e|]; [|by injection Hev as <-].
      by apply (handle_event_pending env now e st). }
    intros p Hp. rewrite Ho. apply H1. by rewrite <- Hs.
  - unfold client_queue. destruct (status st) eqn:E; try exact Hinv.
    intros p Hp. discriminate.
  - unfold client_dequeue. destruct (status st) eqn:E; try exact Hinv;
      intros p Hp; discriminate.
  - intros p Hp. cbn in *. apply Hinv in Hp. set_solver.
  - unfold client_accept. case_decide; [|exact Hinv]. exact Hinv.
  - unfold client_decline. case_decide; [|exact Hinv]. exact Hinv.
Qed.

Lemma pending_invariant_witness :
  pending_inv (client_challenge 20 hs_A0) ∧
  (handler_iteration hs_env 2 (Some (EvPacket (mkPacket 20 (EncC2C Accept) Reliable_unordered)))
     None 0 (client_challenge 20 hs_A0) = Some (LNext 0 (set_status (MatchPending 20)
        (send (reliable_unordered 20 (EncC2C (Start 0))) (client_challenge 20 hs_A0)))) →
   pending_inv (set_status (MatchPending 20)
        (send (reliable_unordered 20 (EncC2C (Start 0))) (client_challenge 20 hs_A0)))).
Proof.
  assert (H0 : pending_inv hs_A0) by (intros p Hp; discriminate).
  destruct (pending_invariant hs_env 2
              (Some (EvPacket (mkPacket 20 (EncC2C Accept) Reliable_unordered))) None 0 1 20
              (client_challenge 20 hs_A0)
              (LNext 0 (set_status (MatchPending 20)
                 (send (reliable_unordered 20 (EncC2C (Start 0))) (client_challenge 20 hs_A0)))))
    as [_ H].
  destruct (pending_invariant hs_env 0 None None 0 1 20 hs_A0 (LQuit hs_A0)) as [_ H'].
  destruct (H' H0) as (_ & _ & _ & Hc & _).
  split; [exact Hc|]. intros Hr. exact (proj1 (H Hc) Hr).
Defined.

(** ** Latency estimate and ping timer *)

(** [Peer::add_ping] never leaves the range of its inputs: if the old
    estimate and the new sample are at most [B], so is the new estimate,
    and the sample count grows by exactly one. *)
Theorem add_ping_bounded (p p' : Peer) (s B : N) :
  (∀ l, latency p = Some l → l <= B)%N →
  (s <= B)%N →
  add_ping p s = Some p' →
  (∀ l', latency p' = Some l' → l' <= B)%N ∧ ping_count p' = (ping_count p + 1)%N ∧
  addr p' = addr p.
Proof.
  intros Hl Hs. unfold add_ping, checked_add_u32.
  destruct (ping_count p + 1 <=? U32_MAX)%N; [|discriminate].
  destruct (latency p) as [l|] eqn:E.
  - unfold checked_add_u128. destruct (l / 2 + s / 2 <=? U128_MAX)%N; [|discriminate].
    intros [= <-]. cbn. split; [|done]. intros l' [= <-].
    specialize (Hl l eq_refl).
    pose proof (N.Div0.mul_div_le l 2). pose proof (N.Div0.mul_div_le s 2). lia.
  - intros [= <-]. cbn. split; [|done]. intros l' [= <-]. done.
Qed.

Lemma add_ping_bounded_witness :
  add_ping (mkPeer 2 (Some 30%N) 4 PSNone) 50 = Some (mkPeer 2 (Some 40%N) 5 PSNone) ∧
  (∀ l', latency (mkPeer 2 (Some 40%N) 5 PSNone) = Some l' → l' <= 50)%N.
Proof.
  split; [reflexivity|].
  apply (add_ping_bounded (mkPeer 2 (Some 30%N) 4 PSNone) _ 50 50).
  - intros l [= <-]. lia.
  - lia.
  - reflexivity.
Defined.


Lemma send_pings_count env now st :
  length (sent (send_pings env now st)) = length (sent st) + size (peers st).
Proof.
  unfold send_pings. rewrite send_pings_fold. cbn.
  rewrite length_app, !length_map. by rewrite length_map_to_list.
Qed.



(** ** Further properties of the server *)



Lemma server_handle_event_extends ev st :
  ∃ l, ssent (server_handle_event ev st) = ssent st ++ l.
Proof.
  destruct ev as [[src pl d]|a|a]; cbn.
  - destruct (deserialize_c2s pl) as [m|]; [|exists []; by rewrite app_nil_r].
    destruct m.
    + by eexists.
    + rewrite server_queue_msg. by eexists.
    + exists []; by rewrite app_nil_r.
    + exists []; by rewrite app_nil_r.
  - exists []; by rewrite app_nil_r.
  - exists []; by rewrite app_nil_r.
Qed.

Definition peers_reply (a : SocketAddr) (l : list Packet) : Prop :=
  ∃ ps, EncS2C (Peers ps) ∈ received a l.

Lemma peers_reply_app a l1 l2 : peers_reply a l1 → peers_reply a (l1 ++ l2).
Proof.
  intros [ps Hps]. exists ps. rewrite received_app. apply elem_of_app. by left.
Qed.

Lemma server_event_queued_replied ev st :
  (∀ a, a ∈ queue st → peers_reply a (ssent st)) →
  ∀ a, a ∈ queue (server_handle_event ev st) →
       peers_reply a (ssent (server_handle_event ev st)).
Proof.
  intros Hinv a Ha.
  destruct (server_handle_event_extends ev st) as [l Hl]. rewrite Hl.
  destruct ev as [[src pl d]|b|b]; cbn [server_handle_event pk_addr pk_payload] in Ha, Hl.
  - destruct (deserialize_c2s pl) as [m|]; [|by apply peers_reply_app, Hinv].
    destruct m.
    + by apply peers_reply_app, Hinv.
    + rewrite server_queue_msg in Ha, Hl. cbn [queue ssent] in Ha, Hl.
      apply app_inv_head in Hl. subst l.
      destruct (decide (a = src)) as [->|Hne].
      * exists (queue st ∖ {[src]}). rewrite received_app, received_cons.
        apply elem_of_app. right. cbn. rewrite decide_True by done.
        apply elem_of_app. left. by apply list_elem_of_singleton.
      * apply peers_reply_app, Hinv. set_solver.
    + cbn in Ha. apply peers_reply_app, Hinv. set_solver.
    + by apply peers_reply_app, Hinv.
  - by apply peers_reply_app, Hinv.
  - cbn in Ha. apply peers_reply_app, Hinv. set_solver.
Qed.

(** Every address in the server's queue has been sent a [Peers] reply: this
    holds after any sequence of transport events from a fresh server. *)
Theorem queued_have_peers evs :
  ∀ a, a ∈ queue (server_run evs server_new) →
       ∃ ps, EncS2C (Peers ps) ∈ received a (ssent (server_run evs server_new)).
Proof.
  unfold server_run.
  assert (Hgen : ∀ st, (∀ a, a ∈ queue st → peers_reply a (ssent st)) →
           ∀ a, a ∈ queue (foldl (fun st e => server_handle_event e st) st evs) →
                peers_reply a (ssent (foldl (fun st e => server_handle_event e st) st evs))).
  { induction evs as [|e evs IH]; intros st Hst; cbn [foldl]; [done|].
    apply IH. by apply server_event_queued_replied. }
  apply Hgen. intros a Ha. cbn in Ha. set_solver.
Qed.

Lemma server_event_packets_ok ev st :
  Forall server_packet_ok (ssent st) →
  Forall server_packet_ok (ssent (server_handle_event ev st)).
Proof.
  intros Hok. destruct ev as [[src pl d]|b|b]; cbn [server_handle_event pk_payload pk_addr].
  - destruct (deserialize_c2s pl) as [m|]; [|done].
    destruct m.
    + cbn. apply Forall_app. split; [done|]. constructor; [|done]. by split.
    + rewrite server_queue_msg. cbn [ssent]. apply Forall_app. split; [done|].
      constructor.
      * split; [done|]. cbn. set_solver.
      * apply Forall_forall. intros pk Hpk.
        apply list_elem_of_fmap in Hpk as (c & -> & Hc).
        apply elem_of_elements in Hc.
        split; [done|]. cbn. set_solver.
    + done.
    + done.
  - done.
  - done.
Qed.

(** Whatever events it has seen, a fresh server has only sent reliable
    packets carrying [Alive], [Peers] or [Queued]: never [Dequeued], never
    a [Peers] set containing its recipient and never [Queued] about the
    recipient itself. *)
Theorem server_packets_well_formed evs :
  Forall server_packet_ok (ssent (server_run evs server_new)).
Proof.
  unfold server_run.
  assert (Hgen : ∀ st, Forall server_packet_ok (ssent st) →
            Forall server_packet_ok
              (ssent (foldl (fun st e => server_handle_event e st) st evs))).
  { induction evs as [|e evs IH]; intros st Hst; cbn [foldl]; [done|].
    apply IH. by apply server_event_packets_ok. }
  apply Hgen. constructor.
Qed.

(** ** Handshake *)



(** Two [Queued] clients at distinct addresses, neither being the other's
    server: if A challenges B, B accepts and no packet is lost, both end
    [MatchConfirmed] on each other, and B (confirming from [Queued]) has
    empty challenge sets. *)
Theorem handshake_converges envA envB a b now stA stB :
  status stA = SQueued → status stB = SQueued →
  a ≠ server_addr envB → b ≠ server_addr envA →
  ∃ A3 B3, handshake_between envA envB a b now stA stB = Some (A3, B3) ∧
    check_match A3 = Some b ∧ check_match B3 = Some a ∧
    incoming_challenges B3 = ∅ ∧ outgoing_challenges B3 = ∅.
Proof.
  intros HA HB Ha Hb.
  destruct stA as [sA cA pA iA oA lA], stB as [sB cB pB iB oB lB].
  cbn in HA, HB. subst sA sB.
  unfold handshake_between, client_challenge, client_accept, handle_event.
  cbn. repeat settle_decide. cbn. repeat settle_decide. cbn.
  eexists _, _. split; [reflexivity|]. done.
Qed.

Lemma handshake_converges_witness :
  ∃ A3 B3, handshake_between hs_env hs_env 10 20 0 hs_A0 hs_B0 = Some (A3, B3) ∧
    check_match A3 = Some 20 ∧ check_match B3 = Some 10 ∧
    incoming_challenges B3 = ∅ ∧ outgoing_challenges B3 = ∅.
Proof. apply handshake_converges; cbn; try reflexivity; lia. Defined.

Lemma queued_have_peers_witness :
  let evs := [EvPacket (mkPacket 1 (EncC2S Queue) Reliable_unordered);
              EvPacket (mkPacket 2 (EncC2S Queue) Reliable_unordered);
              EvTimeout 1] in
  2 ∈ queue (server_run evs server_new) ∧
  ∃ ps, EncS2C (Peers ps) ∈ received 2 (ssent (server_run evs server_new)).
Proof.
  cbv zeta.
  assert (H : 2 ∈ queue (server_run [EvPacket (mkPacket 1 (EncC2S Queue) Reliable_unordered);
                                     EvPacket (mkPacket 2 (EncC2S Queue) Reliable_unordered);
                                     EvTimeout 1] server_new))
    by (cbn; set_solver).
  split; [exact H|]. exact (queued_have_peers _ 2 H).
Defined.
